(** * Flatten-T Swish: a verification development for [model_ftswish.py]

    The script defines one function of its own, the activation

      t = -1.0
      def ftswish(x):
        return K.maximum(t, K.relu(x)*K.sigmoid(x) + t)

    and feeds it, element by element, the pre-activations of every hidden layer
    of a small convolutional classifier whose last layer is a softmax.  The
    statements below are about the mathematical function that this expression
    denotes: tensor entries are read as real numbers, and the backend
    primitives [K.relu], [K.sigmoid] and [K.maximum] as the real functions they
    compute entry by entry. *)

From Stdlib Require Import Reals Lra Lia ZArith List.
Import ListNotations.

Local Open Scope R_scope.

(** ** Model configuration (lines 16-22 of the script) *)

Definition img_width : nat := 32.
Definition img_height : nat := 32.
Definition batch_size : nat := 250.
Definition no_epochs : nat := 100.
Definition no_classes : nat := 10.

(** ** Preprocessing (lines 27-45 of the script) *)

(** An array: its shape and its entries in row-major order. *)
Record ndarray (A : Type) : Type := mk_ndarray {
  shape : list nat;
  data : list A
}.

Arguments mk_ndarray {A} _ _.
Arguments shape {A} _.
Arguments data {A} _.

Definition size_of (dims : list nat) : nat := fold_right Nat.mul 1%nat dims.

(** [a.reshape(dims)]: the same entries under a new shape; an error ([None])
    when the new shape does not hold as many entries as the array has. *)
Definition reshape {A : Type} (a : ndarray A) (dims : list nat) : option (ndarray A) :=
  if Nat.eqb (size_of dims) (length (data a))
  then Some (mk_ndarray dims (data a))
  else None.

(** [a.astype('float32')] on an array of integers: every entry as a number
    with a fractional part.  The integers of a byte are exact in that format. *)
Definition astype_float32 (a : ndarray Z) : ndarray R :=
  mk_ndarray (shape a) (map IZR (data a)).

(** [a / 255], entry by entry. *)
Definition div_scalar (a : ndarray R) (c : R) : ndarray R :=
  mk_ndarray (shape a) (map (fun v => v / c) (data a)).

(** What lines 30-45 do to [input_train] and to [input_test]:
    reshape by the backend's image data format, parse as floats, normalize. *)
Definition preprocess (channels_first : bool) (input : ndarray Z) : option (ndarray R) :=
  let n := hd 0%nat (shape input) in
  let dims :=
    if channels_first then [n; 3; img_width; img_height]%nat
    else [n; img_width; img_height; 3]%nat in
  match reshape input dims with
  | Some reshaped => Some (div_scalar (astype_float32 reshaped) 255)
  | None => None
  end.

(** The raw pixels are bytes. *)
Definition is_pixel (p : Z) : Prop := (0 <= p <= 255)%Z.

(** One image, every entry at the top of the byte range. *)
Definition white_image : ndarray Z :=
  mk_ndarray [1; 32; 32; 3]%nat (repeat 255%Z 3072).

(** ** The backend primitives used by the script

  [from keras import backend as K]: the backend is a library, its code is not
  part of the repository.  The three element-wise primitives the activation
  calls are given the meaning the specification states for them. *)

Module K.

(** Modelled from the spec: the backend primitive [K.relu], whose code is
    not in the repository; "Compute [r = relu(x)], i.e. [max(x, 0)]". *)
Definition relu (x : R) : R := Rmax x 0.

(** Modelled from the spec: the backend primitive [K.sigmoid], whose code is
    not in the repository; "[sigmoid(x) = 1 / (1 + e^{-x})]". *)
Definition sigmoid (x : R) : R := 1 / (1 + exp (- x)).

(** Modelled from the spec: the backend primitive [K.maximum], whose code is
    not in the repository; the element-wise maximum of its two arguments. *)
Definition maximum (a b : R) : R := Rmax a b.

End K.

(** ** The activation function (lines 51-54 of the script) *)

Definition t : R := -1.

Definition ftswish (x : R) : R :=
  K.maximum t (K.relu x * K.sigmoid x + t).

(** The value handed to the outer maximum. *)
Definition pre_clamp (x : R) : R := K.relu x * K.sigmoid x + t.

(** The Flatten-T Swish of the cited paper, as the specification words it: the
    same expression without the [relu] gate, [max(t, x*sigmoid(x) + t)]. *)
Definition ftswish_published (x : R) : R :=
  K.maximum t (x * K.sigmoid x + t).

(** The Swish activation of the glossary, [x * sigmoid(x)]. *)
Definition swish (x : R) : R := x * K.sigmoid x.

(** ** Derivatives, one-sided derivatives and sub-gradients *)

(** The closed form of the Swish derivative. *)
Definition dswish (x : R) : R :=
  K.sigmoid x + x * K.sigmoid x * (1 - K.sigmoid x).

(** One-sided derivatives: the limit of the difference quotient over negative
    (resp. positive) increments. *)
Definition left_derivative (f : R -> R) (x l : R) : Prop :=
  limit1_in (fun h => (f (x + h) - f x) / h) (fun h => h < 0) l 0.

Definition right_derivative (f : R -> R) (x l : R) : Prop :=
  limit1_in (fun h => (f (x + h) - f x) / h) (fun h => 0 < h) l 0.

(** [g] is a sub-gradient of [f] at [x]: the line through [(x, f x)] of slope
    [g] stays below the graph of [f]. *)
Definition subgradient (f : R -> R) (x g : R) : Prop :=
  forall y : R, f x + g * (y - x) <= f y.

(** ** The classifier's output layer *)

Definition row_sum (l : list R) : R := fold_right Rplus 0 l.

Module Activations.

(** Modelled from the spec: the built-in activation ['softmax'], whose code is
    not in the repository; "normalization turning a vector of real scores into
    non-negative values summing to 1", that is each score's exponential
    divided by the sum of the exponentials of the row. *)
Definition softmax (z : list R) : list R :=
  map (fun v => exp v / row_sum (map exp z)) z.

End Activations.

(** Entry [j] of the product of the row [x] by [kernel], which has one row per
    input coordinate and one column per unit. *)
Definition dot (x : list R) (kernel : list (list R)) (j : nat) : R :=
  row_sum (map (fun xk => fst xk * nth j (snd xk) 0) (combine x kernel)).

(** Modelled from the spec: the [Dense] layer of the library, whose code is not
    in the repository; a fully connected layer of [units] units: the input
    row times the kernel, plus the bias, then the activation. *)
Definition Dense (units : nat) (activation : list R -> list R)
    (kernel : list (list R)) (bias : list R) (x : list R) : list R :=
  activation (map (fun j => dot x kernel j + nth j bias 0) (seq 0 units)).

Section Model.

(** The two convolution, pooling and dropout blocks followed by [Flatten]
    (lines 58-64): any map from an image to its row of features. *)
Variable conv_blocks : list R -> list R.

(** The learnable parameters of the three fully connected layers. *)
Variables kernel1 kernel2 kernel3 : list (list R).
Variables bias1 bias2 bias3 : list R.

(** Lines 65-67 on top of the convolutional blocks. *)
Definition model (image : list R) : list R :=
  Dense no_classes Activations.softmax kernel3 bias3
    (Dense 256 (map ftswish) kernel2 bias2
       (Dense 512 (map ftswish) kernel1 bias1 (conv_blocks image))).

(** One forward pass over a batch: one output row per image. *)
Definition predict (batch : list (list R)) : list (list R) :=
  map model batch.

End Model.

(** A row of class probabilities: every entry in [[0, 1]], entries summing to 1. *)
Definition probability_row (row : list R) : Prop :=
  Forall (fun p => 0 <= p <= 1) row /\ row_sum row = 1.

(** ** The shape handed to the first layer and the targets (lines 30-49) *)

(** [input_shape], set in the same branch as the reshape (lines 33 and 37). *)
Definition input_shape (channels_first : bool) : list nat :=
  if channels_first then [3; img_width; img_height]%nat
  else [img_width; img_height; 3]%nat.

(** The row of a class label: one at the label's index, zero elsewhere. *)
Definition one_hot (num_classes label : nat) : list R :=
  map (fun c => if Nat.eqb c label then 1 else 0) (seq 0 num_classes).

(** Modelled from the spec: [keras.utils.to_categorical], whose code is not in
    the repository; the one-hot encoding of a vector of class labels, one row
    of [num_classes] entries per label, and an error ([None]) when a label is
    not below [num_classes]. *)
Definition to_categorical (y : list nat) (num_classes : nat) : option (list (list R)) :=
  if forallb (fun label => Nat.ltb label num_classes) y
  then Some (map (one_hot num_classes) y)
  else None.

(** * Properties *)

(** ** Facts about the primitives *)

Lemma relu_nonpos (x : R) : x <= 0 -> K.relu x = 0.
Proof. intro Hx. unfold K.relu. now apply Rmax_right. Qed.

Lemma relu_nonneg (x : R) : 0 <= x -> K.relu x = x.
Proof. intro Hx. unfold K.relu. now apply Rmax_left. Qed.

Lemma relu_ge_0 (x : R) : 0 <= K.relu x.
Proof. unfold K.relu. apply Rmax_r. Qed.

Lemma sigmoid_denom_pos (x : R) : 0 < 1 + exp (- x).
Proof. pose proof (exp_pos (- x)). lra. Qed.

Lemma sigmoid_pos (x : R) : 0 < K.sigmoid x.
Proof.
  unfold K.sigmoid. apply Rdiv_lt_0_compat; [lra | apply sigmoid_denom_pos].
Qed.

Lemma sigmoid_lt_1 (x : R) : K.sigmoid x < 1.
Proof.
  unfold K.sigmoid.
  pose proof (exp_pos (- x)) as He.
  apply Rmult_lt_reg_r with (1 + exp (- x)); [lra |].
  field_simplify; lra.
Qed.

Lemma sigmoid_0 : K.sigmoid 0 = 1 / 2.
Proof. unfold K.sigmoid. rewrite Ropp_0, exp_0. lra. Qed.

Lemma sigmoid_incr (x y : R) : x <= y -> K.sigmoid x <= K.sigmoid y.
Proof.
  intro Hxy. unfold K.sigmoid.
  pose proof (exp_pos (- x)) as Hx. pose proof (exp_pos (- y)) as Hy.
  assert (Hexp : exp (- y) <= exp (- x)).
  { destruct Hxy as [Hlt | ->]; [left; apply exp_increasing; lra | right; reflexivity]. }
  unfold Rdiv. rewrite !Rmult_1_l.
  apply Rinv_le_contravar; lra.
Qed.

(** One minus the sigmoid, in closed form. *)
Lemma one_minus_sigmoid (x : R) : 1 - K.sigmoid x = 1 / (1 + exp x).
Proof.
  unfold K.sigmoid. rewrite exp_Ropp.
  pose proof (exp_pos x) as He.
  field. split; [lra |].
  intro H. apply (Rlt_irrefl 0). rewrite <- H at 2. lra.
Qed.

(** ** The shape of [ftswish] *)

Lemma ftswish_unfold (x : R) : ftswish x = Rmax t (pre_clamp x).
Proof. reflexivity. Qed.

Lemma pre_clamp_ge_t (x : R) : t <= pre_clamp x.
Proof.
  unfold pre_clamp.
  pose proof (relu_ge_0 x) as Hr. pose proof (sigmoid_pos x) as Hs.
  assert (0 <= K.relu x * K.sigmoid x) by (apply Rmult_le_pos; lra).
  lra.
Qed.

Lemma ftswish_pre_clamp (x : R) : ftswish x = pre_clamp x.
Proof. rewrite ftswish_unfold. apply Rmax_right, pre_clamp_ge_t. Qed.

Lemma ftswish_nonpos (x : R) : x <= 0 -> ftswish x = t.
Proof.
  intro Hx. rewrite ftswish_pre_clamp. unfold pre_clamp.
  rewrite (relu_nonpos x Hx). lra.
Qed.

Lemma ftswish_ge_t (x : R) : t <= ftswish x.
Proof. rewrite ftswish_pre_clamp. apply pre_clamp_ge_t. Qed.

Lemma ftswish_pos (x : R) : 0 <= x -> ftswish x = x * K.sigmoid x + t.
Proof.
  intro Hx. rewrite ftswish_pre_clamp. unfold pre_clamp.
  now rewrite (relu_nonneg x Hx).
Qed.

(** ** Floor, flat part and Swish part *)

(** C1: for every real input [x], [ftswish x] is at least the threshold [t]. *)
Theorem ftswish_floor (x : R) : ftswish x >= t.
Proof. unfold ftswish, K.maximum. apply Rle_ge, Rmax_l. Qed.

(** C2: for every real [x <= 0] (zero included) the gate [relu x] is [0], the
    value before the clamp is [t], and [ftswish x] is exactly [t]. *)
Theorem ftswish_flat (x : R) :
  x <= 0 -> K.relu x = 0 /\ pre_clamp x = t /\ ftswish x = t.
Proof.
  intro Hx. split; [now apply relu_nonpos |]. split.
  - unfold pre_clamp. rewrite (relu_nonpos x Hx). lra.
  - now apply ftswish_nonpos.
Qed.

Lemma ftswish_flat_witness :
  K.relu 0 = 0 /\ pre_clamp 0 = t /\ ftswish 0 = t.
Proof. apply (ftswish_flat 0). lra. Defined.

(** C3: for every real [x > 0] the product [x * sigmoid x] is non-negative, the
    value before the clamp, [x * sigmoid x + t], is at least [t], and the
    outer maximum returns it unchanged: [ftswish x] is Swish shifted by [t]. *)
Theorem ftswish_swish (x : R) :
  0 < x ->
  0 <= x * K.sigmoid x /\
  x * K.sigmoid x + t >= t /\
  pre_clamp x = x * K.sigmoid x + t /\
  ftswish x = swish x + t.
Proof.
  intro Hx. pose proof (sigmoid_pos x) as Hs.
  assert (H0 : 0 <= x * K.sigmoid x) by (apply Rmult_le_pos; lra).
  repeat split; try lra.
  - unfold pre_clamp. rewrite relu_nonneg; lra.
  - unfold swish. apply ftswish_pos. lra.
Qed.

Lemma ftswish_swish_witness :
  0 <= 1 * K.sigmoid 1 /\
  1 * K.sigmoid 1 + t >= t /\
  pre_clamp 1 = 1 * K.sigmoid 1 + t /\
  ftswish 1 = swish 1 + t.
Proof. apply (ftswish_swish 1). lra. Defined.

(** C5: the [relu] gate is redundant.  For every real [x] the source's
    expression equals the published one without the gate; for [x < 0] the term
    [x * sigmoid x] is negative and the maximum with [t] already returns [t]. *)
Theorem ftswish_relu_redundant (x : R) :
  ftswish x = ftswish_published x /\
  (x < 0 -> x * K.sigmoid x < 0 /\ ftswish_published x = t).
Proof.
  pose proof (sigmoid_pos x) as Hs.
  assert (Hneg : x < 0 -> x * K.sigmoid x < 0 /\ ftswish_published x = t).
  { intro Hx.
    assert (x * K.sigmoid x < 0) by nra.
    split; [assumption |].
    unfold ftswish_published, K.maximum. apply Rmax_left. lra. }
  split; [| exact Hneg].
  destruct (Rlt_le_dec x 0) as [Hx | Hx].
  - rewrite ftswish_nonpos by lra. symmetry. now apply Hneg.
  - unfold ftswish, ftswish_published. now rewrite relu_nonneg.
Qed.

(** ** Derivatives *)

Lemma sigmoid_deriv (x : R) :
  derivable_pt_lim K.sigmoid x (K.sigmoid x * (1 - K.sigmoid x)).
Proof.
  pose proof (sigmoid_denom_pos x) as Hd.
  assert (Hden : derivable_pt_lim (fct_cte 1 + comp exp (- id))%F x (0 + exp (- x) * (- 1))).
  { apply derivable_pt_lim_plus; [apply derivable_pt_lim_const |].
    apply derivable_pt_lim_comp.
    - apply derivable_pt_lim_opp, derivable_pt_lim_id.
    - apply derivable_pt_lim_exp. }
  pose proof (derivable_pt_lim_div (fct_cte 1) _ x _ _
                (derivable_pt_lim_const 1 x) Hden) as Hq.
  unfold plus_fct, comp, opp_fct, fct_cte, id in Hq.
  specialize (Hq (Rgt_not_eq _ _ Hd)).
  apply derivable_pt_lim_ext
    with (f := (fct_cte 1 / (fct_cte 1 + comp exp (- id)))%F).
  - intro z. reflexivity.
  - replace (K.sigmoid x * (1 - K.sigmoid x))
      with ((0 * (1 + exp (- x)) - (0 + exp (- x) * -1) * 1) / Rsqr (1 + exp (- x))).
    + exact Hq.
    + unfold K.sigmoid, Rsqr. field. lra.
Qed.

Lemma swish_deriv (x : R) : derivable_pt_lim swish x (dswish x).
Proof.
  pose proof (derivable_pt_lim_mult id K.sigmoid x _ _
                (derivable_pt_lim_id x) (sigmoid_deriv x)) as Hm.
  apply derivable_pt_lim_ext with (f := (id * K.sigmoid)%F).
  - intro z. reflexivity.
  - replace (dswish x)
      with (1 * K.sigmoid x + id x * (K.sigmoid x * (1 - K.sigmoid x))).
    + exact Hm.
    + unfold dswish, id. ring.
Qed.

Lemma ftswish_deriv_pos (x : R) :
  0 < x -> derivable_pt_lim ftswish x (dswish x).
Proof.
  intro Hx.
  apply derivable_pt_lim_locally_ext
    with (f := (swish + fct_cte t)%F) (a := 0) (b := x + 1); [lra | |].
  - intros z Hz. unfold plus_fct, fct_cte, swish.
    symmetry. apply ftswish_pos. lra.
  - replace (dswish x) with (dswish x + 0) by ring.
    apply derivable_pt_lim_plus; [apply swish_deriv | apply derivable_pt_lim_const].
Qed.

Lemma ftswish_deriv_neg (x : R) :
  x < 0 -> derivable_pt_lim ftswish x 0.
Proof.
  intro Hx.
  apply derivable_pt_lim_locally_ext
    with (f := fct_cte t) (a := x - 1) (b := 0); [lra | |].
  - intros z Hz. unfold fct_cte. symmetry. apply ftswish_nonpos. lra.
  - apply derivable_pt_lim_const.
Qed.

(** ** The kink at the origin *)

Lemma sigmoid_continuous (x : R) : continuity_pt K.sigmoid x.
Proof.
  apply derivable_continuous_pt.
  exists (K.sigmoid x * (1 - K.sigmoid x)). apply sigmoid_deriv.
Qed.

Lemma dswish_continuous (x : R) : continuity_pt dswish x.
Proof.
  change dswish
    with (K.sigmoid + (id * K.sigmoid) * (fct_cte 1 - K.sigmoid))%F.
  apply continuity_pt_plus; [apply sigmoid_continuous |].
  apply continuity_pt_mult.
  - apply continuity_pt_mult; [| apply sigmoid_continuous].
    apply derivable_continuous_pt. exists 1. apply derivable_pt_lim_id.
  - apply continuity_pt_minus; [| apply sigmoid_continuous].
    apply continuity_pt_const. intros a b. reflexivity.
Qed.

Lemma dswish_0 : dswish 0 = 1 / 2.
Proof. unfold dswish. rewrite sigmoid_0. lra. Qed.

(** A function continuous at a point has its value there as limit along any
    set that avoids the point. *)
Lemma continuity_pt_limit1_in (f : R -> R) (D : R -> Prop) (x0 : R) :
  (forall x, D x -> x0 <> x) ->
  continuity_pt f x0 -> limit1_in f D (f x0) x0.
Proof.
  intros HD Hc eps Heps.
  destruct (Hc eps Heps) as [alp [Halp Hlim]].
  exists alp. split; [exact Halp |].
  intros x [HDx Hdist]. apply Hlim. split; [| exact Hdist].
  split; [exact I | now apply HD].
Qed.

Lemma dswish_right_limit : limit1_in dswish (fun x => 0 < x) (K.sigmoid 0) 0.
Proof.
  replace (K.sigmoid 0) with (dswish 0) by (rewrite dswish_0, sigmoid_0; reflexivity).
  apply continuity_pt_limit1_in; [| apply dswish_continuous].
  intros x Hx. lra.
Qed.

Lemma ftswish_continuous_0 : continuity_pt ftswish 0.
Proof.
  intros eps Heps. exists eps. split; [exact Heps |].
  intros x [_ Hdist]. simpl in *. unfold R_dist in *.
  rewrite Rminus_0_r in Hdist.
  rewrite (ftswish_nonpos 0) by lra.
  destruct (Rle_lt_dec x 0) as [Hx | Hx].
  - rewrite ftswish_nonpos by exact Hx.
    replace (t - t) with 0 by ring. now rewrite Rabs_R0.
  - rewrite ftswish_pos by lra.
    pose proof (sigmoid_pos x) as Hs. pose proof (sigmoid_lt_1 x) as Hs1.
    rewrite Rabs_pos_eq in Hdist by lra.
    replace (x * K.sigmoid x + t - t) with (x * K.sigmoid x) by ring.
    rewrite Rabs_pos_eq by nra. nra.
Qed.

Lemma ftswish_continuous (x : R) : continuity_pt ftswish x.
Proof.
  destruct (Rtotal_order x 0) as [Hx | [-> | Hx]].
  - apply derivable_continuous_pt. exists 0. now apply ftswish_deriv_neg.
  - apply ftswish_continuous_0.
  - apply derivable_continuous_pt. exists (dswish x). now apply ftswish_deriv_pos.
Qed.

Lemma ftswish_left_derivative_0 : left_derivative ftswish 0 0.
Proof.
  intros eps Heps. exists 1. split; [lra |].
  intros h [Hh _]. simpl. unfold R_dist.
  rewrite Rplus_0_l, (ftswish_nonpos h), (ftswish_nonpos 0) by lra.
  replace ((t - t) / h - 0) with 0 by (field; lra).
  now rewrite Rabs_R0.
Qed.

Lemma ftswish_right_derivative_0 : right_derivative ftswish 0 (1 / 2).
Proof.
  rewrite <- sigmoid_0.
  intros eps Heps.
  destruct (sigmoid_continuous 0 eps Heps) as [alp [Halp Hlim]].
  exists alp. split; [exact Halp |].
  intros h [Hh Hdist]. simpl in *.
  rewrite Rplus_0_l, (ftswish_pos h), (ftswish_nonpos 0) by lra.
  replace ((h * K.sigmoid h + t - t) / h) with (K.sigmoid h) by (field; lra).
  apply Hlim. split; [| exact Hdist].
  split; [exact I | lra].
Qed.

(** The two one-sided derivatives at the origin differ, so [ftswish] has no
    derivative there. *)
Lemma ftswish_not_derivable_0 : ~ exists l : R, derivable_pt_lim ftswish 0 l.
Proof.
  intros [l Hl].
  assert (Hside : forall D : R -> Prop, (forall h, D h -> h <> 0) ->
            limit1_in (fun h => (ftswish (0 + h) - ftswish 0) / h) D l 0).
  { intros D HD eps Heps. destruct (Hl eps Heps) as [delta Hdelta].
    exists delta. split; [apply cond_pos |].
    intros h [HDh Hdist]. simpl in *. unfold R_dist in *.
    rewrite Rminus_0_r in Hdist. apply Hdelta; [now apply HD | exact Hdist]. }
  assert (Hleft := Hside (fun h => h < 0) (fun h Hh => Rlt_not_eq _ _ Hh)).
  assert (Hright := Hside (fun h => 0 < h) (fun h Hh => Rgt_not_eq _ _ Hh)).
  destruct (Hleft (1 / 8)) as [a [Ha Hla]]; [lra |].
  destruct (Hright (1 / 8)) as [b [Hb Hrb]]; [lra |].
  destruct (ftswish_left_derivative_0 (1 / 8)) as [a' [Ha' Hla']]; [lra |].
  destruct (ftswish_right_derivative_0 (1 / 8)) as [b' [Hb' Hrb']]; [lra |].
  set (m := Rmin (Rmin a a') (Rmin b b')).
  assert (Hm : 0 < m) by (unfold m; repeat apply Rmin_pos; lra).
  assert (Hma : m <= a) by (unfold m; eapply Rle_trans; [apply Rmin_l | apply Rmin_l]).
  assert (Hma' : m <= a') by (unfold m; eapply Rle_trans; [apply Rmin_l | apply Rmin_r]).
  assert (Hmb : m <= b) by (unfold m; eapply Rle_trans; [apply Rmin_r | apply Rmin_l]).
  assert (Hmb' : m <= b') by (unfold m; eapply Rle_trans; [apply Rmin_r | apply Rmin_r]).
  assert (Hdl : R_dist (- (m / 2)) 0 < m).
  { unfold R_dist. rewrite Rminus_0_r, Rabs_Ropp, Rabs_pos_eq; lra. }
  assert (Hdr : R_dist (m / 2) 0 < m).
  { unfold R_dist. rewrite Rminus_0_r, Rabs_pos_eq; lra. }
  specialize (Hla (- (m / 2))). specialize (Hla' (- (m / 2))).
  specialize (Hrb (m / 2)). specialize (Hrb' (m / 2)).
  simpl in *. unfold R_dist in *.
  assert (H1 := Hla ltac:(split; lra)).
  assert (H2 := Hla' ltac:(split; lra)).
  assert (H3 := Hrb ltac:(split; lra)).
  assert (H4 := Hrb' ltac:(split; lra)).
  apply Rabs_def2 in H1, H2, H3, H4. lra.
Qed.

(** A function whose limits from the left and from the right at the origin
    differ is not continuous there, whatever its value at the origin. *)
Lemma one_sided_limits_differ (d : R -> R) (l r : R) :
  limit1_in d (fun x => x < 0) l 0 ->
  limit1_in d (fun x => 0 < x) r 0 ->
  l <> r -> ~ continuity_pt d 0.
Proof.
  intros Hl Hr Hlr Hc.
  set (eps := Rabs (l - r) / 4).
  assert (Heps : eps > 0).
  { unfold eps. assert (0 < Rabs (l - r)) by (apply Rabs_pos_lt; lra). lra. }
  destruct (Hl eps Heps) as [a [Ha Hla]].
  destruct (Hr eps Heps) as [b [Hb Hrb]].
  destruct (Hc eps Heps) as [c [Hc0 Hcc]].
  set (m := Rmin c (Rmin a b)).
  assert (Hm : 0 < m) by (unfold m; repeat apply Rmin_pos; lra).
  assert (Hmc : m <= c) by (unfold m; apply Rmin_l).
  assert (Hma : m <= a) by (unfold m; eapply Rle_trans; [apply Rmin_r | apply Rmin_l]).
  assert (Hmb : m <= b) by (unfold m; eapply Rle_trans; [apply Rmin_r | apply Rmin_r]).
  assert (Hdl : Rabs (- (m / 2) - 0) < m).
  { rewrite Rminus_0_r, Rabs_Ropp, Rabs_pos_eq; lra. }
  assert (Hdr : Rabs (m / 2 - 0) < m).
  { rewrite Rminus_0_r, Rabs_pos_eq; lra. }
  specialize (Hla (- (m / 2))). specialize (Hrb (m / 2)).
  assert (Hcl := Hcc (- (m / 2))). assert (Hcr := Hcc (m / 2)).
  unfold D_x, no_cond in Hcl, Hcr.
  simpl in Hla, Hrb, Hcl, Hcr. unfold R_dist in Hla, Hrb, Hcl, Hcr.
  assert (H1 := Hla ltac:(split; lra)).
  assert (H2 := Hrb ltac:(split; lra)).
  assert (H3 := Hcl ltac:(repeat split; lra)).
  assert (H4 := Hcr ltac:(repeat split; lra)).
  apply Rabs_def2 in H1, H2, H3, H4.
  unfold eps in *. clear Hla Hrb Hcl Hcr Hcc.
  destruct (Rcase_abs (l - r)) as [Hneg | Hpos].
  - rewrite (Rabs_left _ Hneg) in *. lra.
  - rewrite (Rabs_right _ Hpos) in *. lra.
Qed.

(** ** Gradient *)

(** C4: the derivative of [ftswish].  At every [x > 0] it is
    [sigmoid x + x * sigmoid x * (1 - sigmoid x)]; at every [x < 0] it is [0];
    at [x = 0], where the convention assigns the value of the [x <= 0]
    branch, [0] is the derivative from the left and a sub-gradient. *)
Theorem ftswish_gradient (x : R) :
  (0 < x ->
   derivable_pt_lim ftswish x
     (K.sigmoid x + x * K.sigmoid x * (1 - K.sigmoid x))) /\
  (x < 0 -> derivable_pt_lim ftswish x 0) /\
  (x = 0 -> left_derivative ftswish x 0 /\ subgradient ftswish x 0).
Proof.
  split; [| split].
  - intro Hx. now apply ftswish_deriv_pos.
  - intro Hx. now apply ftswish_deriv_neg.
  - intros ->. split; [apply ftswish_left_derivative_0 |].
    intro y. rewrite (ftswish_nonpos 0) by lra.
    pose proof (ftswish_ge_t y). lra.
Qed.

(** C6: [ftswish] is continuous at the origin, where it takes the value [t],
    the limit from either side; its derivative is [0] at every [x < 0], while
    the derivative on the positive side tends to [sigmoid 0 = 1/2] as [x]
    tends to [0] from the right.  Hence no function that gives the derivative
    of [ftswish] away from the origin is continuous at the origin. *)
Theorem ftswish_kink :
  (continuity_pt ftswish 0 /\ ftswish 0 = t /\
   limit1_in ftswish (fun x => x < 0) t 0 /\
   limit1_in ftswish (fun x => 0 < x) t 0) /\
  (forall x, x < 0 -> derivable_pt_lim ftswish x 0) /\
  (forall x, 0 < x -> derivable_pt_lim ftswish x (dswish x)) /\
  limit1_in dswish (fun x => 0 < x) (K.sigmoid 0) 0 /\
  K.sigmoid 0 = 1 / 2 /\
  (forall d : R -> R,
     (forall x, x <> 0 -> derivable_pt_lim ftswish x (d x)) ->
     (forall x, x < 0 -> d x = 0) /\
     limit1_in d (fun x => 0 < x) (1 / 2) 0 /\
     ~ continuity_pt d 0).
Proof.
  assert (Hval : ftswish 0 = t) by (apply ftswish_nonpos; lra).
  split; [| split; [| split; [| split; [| split]]]].
  - split; [apply ftswish_continuous_0 |]. split; [exact Hval |].
    rewrite <- Hval.
    split; apply continuity_pt_limit1_in;
      try apply ftswish_continuous_0; intros x Hx; lra.
  - exact ftswish_deriv_neg.
  - exact ftswish_deriv_pos.
  - exact dswish_right_limit.
  - exact sigmoid_0.
  - intros d Hd.
    assert (Hneg : forall x, x < 0 -> d x = 0).
    { intros x Hx.
      apply (uniqueness_limite ftswish x); [apply Hd; lra | now apply ftswish_deriv_neg]. }
    assert (Hposd : forall x, 0 < x -> d x = dswish x).
    { intros x Hx.
      apply (uniqueness_limite ftswish x); [apply Hd; lra | now apply ftswish_deriv_pos]. }
    assert (Hleft : limit1_in d (fun x => x < 0) 0 0).
    { intros eps Heps. exists 1. split; [lra |].
      intros x [Hx _]. rewrite (Hneg x Hx). simpl. unfold R_dist.
      replace (0 - 0) with 0 by ring. rewrite Rabs_R0. lra. }
    assert (Hright : limit1_in d (fun x => 0 < x) (1 / 2) 0).
    { rewrite <- sigmoid_0. intros eps Heps.
      destruct (dswish_right_limit eps Heps) as [alp [Halp Hlim]].
      exists alp. split; [exact Halp |].
      intros x Hx. rewrite (Hposd x (proj1 Hx)). now apply Hlim. }
    split; [exact Hneg |]. split; [exact Hright |].
    apply (one_sided_limits_differ d 0 (1 / 2) Hleft Hright). lra.
Qed.

(** ** Saturation *)

Lemma exp_50_large : 60466176 <= exp 50.
Proof.
  pose proof (exp_ineq1_le 5) as H5.
  pose proof (exp_plus 5 5) as H10.
  pose proof (exp_plus 10 10) as H20.
  pose proof (exp_plus 20 20) as H40.
  pose proof (exp_plus 40 10) as H50.
  replace (5 + 5) with 10 in H10 by lra.
  replace (10 + 10) with 20 in H20 by lra.
  replace (20 + 20) with 40 in H40 by lra.
  replace (40 + 10) with 50 in H50 by lra.
  assert (H10' : 36 <= exp 10) by nra.
  assert (H20' : 1296 <= exp 20) by nra.
  assert (H40' : 1679616 <= exp 40) by nra.
  nra.
Qed.

(** C7: at [x = 50] the distance between [ftswish 50] and [50 + t] is
    [50 / (1 + e^50)], which is at most [1e-4]. *)
Theorem ftswish_saturates_50 :
  Rabs (ftswish 50 - (50 + t)) = 50 / (1 + exp 50) /\
  Rabs (ftswish 50 - (50 + t)) <= 1 / 10000.
Proof.
  pose proof exp_50_large as He.
  assert (Heq : Rabs (ftswish 50 - (50 + t)) = 50 / (1 + exp 50)).
  { rewrite ftswish_pos by lra.
    replace (50 * K.sigmoid 50 + t - (50 + t))
      with (- (50 * (1 - K.sigmoid 50))) by ring.
    rewrite one_minus_sigmoid, Rabs_Ropp.
    assert (0 < 50 / (1 + exp 50)) by (apply Rdiv_lt_0_compat; lra).
    rewrite Rabs_pos_eq; lra. }
  split; [exact Heq |]. rewrite Heq.
  apply Rmult_le_reg_r with (1 + exp 50); [lra |].
  unfold Rdiv. rewrite Rmult_assoc, Rinv_l by lra. lra.
Qed.

(** ** Monotonicity *)

Lemma dswish_factored (x : R) :
  dswish x = K.sigmoid x * (1 + x * (1 - K.sigmoid x)).
Proof. unfold dswish. ring. Qed.

Lemma dswish_pos (x : R) : 0 < x -> 0 < dswish x.
Proof.
  intro Hx. rewrite dswish_factored.
  pose proof (sigmoid_pos x) as Hs. pose proof (sigmoid_lt_1 x) as Hs1.
  apply Rmult_lt_0_compat; [exact Hs | nra].
Qed.

Lemma swish_strict (x y : R) : 0 <= x -> x < y -> swish x < swish y.
Proof.
  intros Hx Hxy. unfold swish.
  pose proof (sigmoid_pos x) as Hs. pose proof (sigmoid_pos y) as Hs'.
  pose proof (sigmoid_incr x y (Rlt_le _ _ Hxy)) as Hi.
  nra.
Qed.

(** C9: [ftswish] is non-decreasing on the reals: it is the constant [t] up to
    the origin and strictly increasing on the positive numbers, where its
    derivative [sigmoid x * (1 + x * (1 - sigmoid x))] is positive. *)
Theorem ftswish_monotone (x y : R) :
  x <= y ->
  ftswish x <= ftswish y /\
  (y <= 0 -> ftswish x = t /\ ftswish y = t) /\
  (0 < x -> x < y -> ftswish x < ftswish y) /\
  (0 < x ->
   derivable_pt_lim ftswish x (K.sigmoid x * (1 + x * (1 - K.sigmoid x))) /\
   0 < K.sigmoid x * (1 + x * (1 - K.sigmoid x))).
Proof.
  intro Hxy.
  assert (Hstrict : 0 <= x -> x < y -> ftswish x < ftswish y).
  { intros Hx Hlt. rewrite !ftswish_pos by lra.
    pose proof (swish_strict x y Hx Hlt) as Hs. unfold swish in Hs. lra. }
  split; [| split; [| split]].
  - destruct (Rle_lt_dec x 0) as [Hx | Hx].
    + rewrite (ftswish_nonpos x Hx). apply ftswish_ge_t.
    + destruct Hxy as [Hlt | ->]; [left; apply Hstrict; lra | right; reflexivity].
  - intro Hy. split; apply ftswish_nonpos; lra.
  - intros Hx Hlt. apply Hstrict; lra.
  - intro Hx. rewrite <- dswish_factored.
    split; [now apply ftswish_deriv_pos | now apply dswish_pos].
Qed.

Lemma ftswish_monotone_witness :
  ftswish 1 <= ftswish 2 /\
  (2 <= 0 -> ftswish 1 = t /\ ftswish 2 = t) /\
  (0 < 1 -> 1 < 2 -> ftswish 1 < ftswish 2) /\
  (0 < 1 ->
   derivable_pt_lim ftswish 1 (K.sigmoid 1 * (1 + 1 * (1 - K.sigmoid 1))) /\
   0 < K.sigmoid 1 * (1 + 1 * (1 - K.sigmoid 1))).
Proof. apply (ftswish_monotone 1 2). lra. Defined.

(** ** The classifier's output layer *)

Lemma row_sum_exp_pos (z : list R) : z <> [] -> 0 < row_sum (map exp z).
Proof.
  destruct z as [| v z]; [congruence | intros _]. simpl.
  pose proof (exp_pos v) as Hv.
  assert (0 <= row_sum (map exp z)).
  { induction z as [| w z IH]; simpl; [lra |]. pose proof (exp_pos w). lra. }
  lra.
Qed.

Lemma row_sum_exp_nonneg (z : list R) : 0 <= row_sum (map exp z).
Proof.
  induction z as [| w z IH]; simpl; [lra |]. pose proof (exp_pos w). lra.
Qed.

Lemma exp_le_row_sum (z : list R) (v : R) :
  In v z -> exp v <= row_sum (map exp z).
Proof.
  induction z as [| w z IH]; simpl; [tauto |].
  intros [-> | Hin].
  - pose proof (row_sum_exp_nonneg z). lra.
  - specialize (IH Hin). pose proof (exp_pos w). lra.
Qed.

Lemma row_sum_scaled (s : R) (l : list R) :
  row_sum (map (fun v => v / s) l) = row_sum l / s.
Proof.
  induction l as [| v l IH]; simpl.
  - unfold Rdiv. ring.
  - rewrite IH. unfold Rdiv. ring.
Qed.

Lemma softmax_length (z : list R) :
  length (Activations.softmax z) = length z.
Proof. unfold Activations.softmax. apply length_map. Qed.

Lemma softmax_probability_row (z : list R) :
  z <> [] -> probability_row (Activations.softmax z).
Proof.
  intro Hz. pose proof (row_sum_exp_pos z Hz) as HS.
  unfold probability_row, Activations.softmax. split.
  - apply Forall_forall. intros p Hp.
    apply in_map_iff in Hp. destruct Hp as [v [<- Hv]].
    pose proof (exp_pos v) as He. pose proof (exp_le_row_sum z v Hv) as Hle.
    split.
    + apply Rlt_le, Rdiv_lt_0_compat; assumption.
    + apply Rmult_le_reg_r with (row_sum (map exp z)); [exact HS |].
      unfold Rdiv. rewrite Rmult_assoc, Rinv_l by lra. lra.
  - rewrite <- (map_map exp (fun e => e / row_sum (map exp z))).
    rewrite row_sum_scaled. field. lra.
Qed.

Lemma Dense_softmax_length (units : nat) kernel bias x :
  length (Dense units Activations.softmax kernel bias x) = units.
Proof.
  unfold Dense. now rewrite softmax_length, length_map, length_seq.
Qed.

(** C8: for every input batch (and whatever the parameters and the layers
    below compute) the forward pass returns one row per image, each of
    [no_classes] entries, every entry in [[0, 1]], the entries of a row summing
    to [1], in particular within [1e-5] of [1]. *)
Theorem softmax_output_probabilities
    (conv_blocks : list R -> list R)
    (kernel1 kernel2 kernel3 : list (list R)) (bias1 bias2 bias3 : list R)
    (batch : list (list R)) :
  let output :=
    predict conv_blocks kernel1 kernel2 kernel3 bias1 bias2 bias3 batch in
  length output = length batch /\
  Forall (fun row =>
            length row = no_classes /\
            Forall (fun p => 0 <= p <= 1) row /\
            row_sum row = 1 /\
            Rabs (row_sum row - 1) <= 1 / 100000) output.
Proof.
  cbv zeta. unfold predict. split; [apply length_map |].
  apply Forall_forall. intros row Hrow.
  apply in_map_iff in Hrow. destruct Hrow as [image [<- _]].
  unfold model.
  set (h := Dense 256 _ _ _ _).
  assert (Hprob : probability_row (Dense no_classes Activations.softmax kernel3 bias3 h)).
  { unfold Dense. apply softmax_probability_row.
    unfold no_classes. simpl. discriminate. }
  destruct Hprob as [Hrange Hsum].
  split; [apply Dense_softmax_length |]. split; [exact Hrange |].
  split; [exact Hsum |].
  rewrite Hsum. replace (1 - 1) with 0 by ring. rewrite Rabs_R0. lra.
Qed.

(** ** Preprocessing *)

Lemma normalized_pixel (p : Z) : is_pixel p -> 0 <= IZR p / 255 <= 1.
Proof.
  intros [Hlo Hhi]. apply IZR_le in Hlo, Hhi.
  split.
  - apply Rmult_le_reg_r with 255; [lra |].
    unfold Rdiv. rewrite Rmult_assoc, Rinv_l by lra. lra.
  - apply Rmult_le_reg_r with 255; [lra |].
    unfold Rdiv. rewrite Rmult_assoc, Rinv_l by lra. lra.
Qed.

Lemma reshape_data {A : Type} (a b : ndarray A) (dims : list nat) :
  reshape a dims = Some b -> data b = data a /\ shape b = dims.
Proof.
  unfold reshape. destruct (Nat.eqb _ _); [| discriminate].
  intro H. injection H as <-. split; reflexivity.
Qed.

Lemma preprocess_range (cf : bool) (input : ndarray Z) (out : ndarray R) :
  Forall is_pixel (data input) ->
  preprocess cf input = Some out ->
  Forall (fun v => 0 <= v <= 1) (data out).
Proof.
  intros Hpix. unfold preprocess.
  destruct (reshape input _) as [r |] eqn:Hr; [| discriminate].
  intro H. injection H as <-.
  apply reshape_data in Hr. destruct Hr as [Hd _].
  unfold div_scalar, astype_float32. simpl. rewrite Hd, map_map.
  apply Forall_forall. intros v Hv.
  apply in_map_iff in Hv. destruct Hv as [p [<- Hp]].
  apply normalized_pixel. rewrite Forall_forall in Hpix. now apply Hpix.
Qed.

(** C10: after preprocessing every entry lies in [[0, 1]].  For a data set of
    [n] images of 32 by 32 pixels and 3 channels whose entries are integers
    of [[0, 255]], and for either image data format, preprocessing succeeds
    and every entry [v] of the result satisfies [0 <= v <= 1]. *)
Theorem preprocess_unit_interval
    (channels_first : bool) (n : nat) (input : ndarray Z) :
  shape input = [n; 32; 32; 3]%nat ->
  length (data input) = (n * 32 * 32 * 3)%nat ->
  Forall is_pixel (data input) ->
  exists out : ndarray R,
    preprocess channels_first input = Some out /\
    length (data out) = length (data input) /\
    Forall (fun v => 0 <= v <= 1) (data out).
Proof.
  intros Hshape Hlen Hpix.
  assert (Hsome : exists out, preprocess channels_first input = Some out /\
                              length (data out) = length (data input)).
  { unfold preprocess, reshape. rewrite Hshape. simpl hd.
    assert (Hsz : forall dims, size_of dims = (n * 32 * 32 * 3)%nat ->
              Nat.eqb (size_of dims) (length (data input)) = true).
    { intros dims Hd. rewrite Hd, Hlen. apply Nat.eqb_refl. }
    destruct channels_first; rewrite Hsz.
    - eexists. split; [reflexivity |]. simpl. now rewrite !length_map.
    - unfold size_of, img_width, img_height. simpl. lia.
    - eexists. split; [reflexivity |]. simpl. now rewrite !length_map.
    - unfold size_of, img_width, img_height. simpl. lia. }
  destruct Hsome as [out [Hout Hl]].
  exists out. split; [exact Hout |]. split; [exact Hl |].
  now apply (preprocess_range channels_first input out).
Qed.

Lemma preprocess_unit_interval_witness :
  exists out : ndarray R,
    preprocess false white_image = Some out /\
    length (data out) = length (data white_image) /\
    Forall (fun v => 0 <= v <= 1) (data out).
Proof.
  apply (preprocess_unit_interval false 1 white_image).
  - reflexivity.
  - vm_compute. reflexivity.
  - apply Forall_forall. intros p Hp.
    apply repeat_spec in Hp. subst p. unfold is_pixel. lia.
Defined.

(** * Further properties of the activation *)

Lemma ftswish_strict (x y : R) : 0 <= x -> x < y -> ftswish x < ftswish y.
Proof.
  intros Hx Hlt. rewrite !ftswish_pos by lra.
  pose proof (swish_strict x y Hx Hlt) as Hs. unfold swish in Hs. lra.
Qed.

Lemma sigmoid_ge_half (x : R) : 0 <= x -> 1 / 2 <= K.sigmoid x.
Proof. intro Hx. rewrite <- sigmoid_0. now apply sigmoid_incr. Qed.

(** The exponential dominates the square of its first-order bound. *)
Lemma exp_ge_square (x : R) : 0 <= x -> 1 + x + x * x / 4 <= exp x.
Proof.
  intro Hx. pose proof (exp_ineq1_le (x / 2)) as Hh.
  assert (Hsplit : exp x = exp (x / 2) * exp (x / 2)).
  { rewrite <- exp_plus. f_equal. lra. }
  rewrite Hsplit. nra.
Qed.

(** What the sigmoid leaves of [x] to reach [x] itself. *)
Lemma saturation_gap_half (x : R) : 0 <= x -> x / (1 + exp x) <= 1 / 2.
Proof.
  intro Hx. pose proof (exp_ge_square x Hx) as He.
  apply Rmult_le_reg_r with (1 + exp x); [nra |].
  unfold Rdiv. rewrite Rmult_assoc, Rinv_l by nra. nra.
Qed.

Lemma dswish_lt_3_2 (x : R) : 0 <= x -> dswish x < 3 / 2.
Proof.
  intro Hx. rewrite dswish_factored.
  pose proof (sigmoid_pos x) as Hs. pose proof (sigmoid_lt_1 x) as Hs1.
  pose proof (saturation_gap_half x Hx) as Hg.
  assert (Hq : x * (1 - K.sigmoid x) = x / (1 + exp x)).
  { rewrite one_minus_sigmoid. unfold Rdiv. ring. }
  rewrite Hq.
  assert (0 <= x / (1 + exp x)).
  { apply Rmult_le_pos; [exact Hx |]. pose proof (exp_pos x).
    apply Rlt_le, Rinv_0_lt_compat. lra. }
  nra.
Qed.

Lemma swish_increment (x y : R) :
  0 <= x -> x < y -> swish y - swish x < 3 / 2 * (y - x).
Proof.
  intros Hx Hxy.
  destruct (MVT_cor2 swish dswish x y Hxy (fun c _ => swish_deriv c))
    as [c [Heq [Hc1 Hc2]]].
  rewrite Heq. pose proof (dswish_lt_3_2 c ltac:(lra)). nra.
Qed.

(** X1: the flat part is exactly the non-positive half-line and [ftswish] is
    one-to-one elsewhere: two inputs have the same output if and only if they
    are equal or both non-positive. *)
Theorem ftswish_collisions (x y : R) :
  ftswish x = ftswish y <-> x = y \/ (x <= 0 /\ y <= 0).
Proof.
  split.
  - intro Heq.
    destruct (Rle_lt_dec x 0) as [Hx | Hx]; destruct (Rle_lt_dec y 0) as [Hy | Hy].
    + right. split; assumption.
    + exfalso. pose proof (ftswish_strict 0 y ltac:(lra) Hy) as Hs.
      rewrite (ftswish_nonpos x Hx) in Heq.
      rewrite (ftswish_nonpos 0) in Hs by lra. lra.
    + exfalso. pose proof (ftswish_strict 0 x ltac:(lra) Hx) as Hs.
      rewrite (ftswish_nonpos y Hy) in Heq.
      rewrite (ftswish_nonpos 0) in Hs by lra. lra.
    + left. destruct (Rtotal_order x y) as [Hlt | [Heq' | Hgt]]; [| exact Heq' |].
      * pose proof (ftswish_strict x y ltac:(lra) Hlt). lra.
      * pose proof (ftswish_strict y x ltac:(lra) Hgt). lra.
  - intros [-> | [Hx Hy]]; [reflexivity |].
    now rewrite (ftswish_nonpos x Hx), (ftswish_nonpos y Hy).
Qed.

(** X2: [ftswish] lies between half the rectifier and the rectifier, both
    shifted by [t]: [relu x / 2 + t <= ftswish x <= relu x + t]. *)
Theorem ftswish_relu_sandwich (x : R) :
  K.relu x / 2 + t <= ftswish x <= K.relu x + t.
Proof.
  destruct (Rle_lt_dec x 0) as [Hx | Hx].
  - rewrite (ftswish_nonpos x Hx), (relu_nonpos x Hx). lra.
  - rewrite ftswish_pos, relu_nonneg by lra.
    pose proof (sigmoid_ge_half x ltac:(lra)). pose proof (sigmoid_lt_1 x). nra.
Qed.

(** X3: the values of [ftswish] are exactly the reals from [t] upwards. *)
Theorem ftswish_range (y : R) : (exists x : R, ftswish x = y) <-> t <= y.
Proof.
  split.
  - intros [x <-]. apply ftswish_ge_t.
  - intro Hy.
    set (c := y - t).
    assert (Hcont : continuity (ftswish - fct_cte y)%F).
    { apply continuity_minus; [exact ftswish_continuous |].
      apply continuity_const. intros a b. reflexivity. }
    destruct (IVT_cor (ftswish - fct_cte y)%F 0 (2 * c) Hcont) as [z [_ Hz]].
    + unfold c. lra.
    + unfold minus_fct, fct_cte. rewrite (ftswish_nonpos 0) by lra.
      assert (H2c : 0 <= 2 * c) by (unfold c; lra).
      rewrite (ftswish_pos (2 * c) H2c).
      pose proof (sigmoid_ge_half (2 * c) H2c) as Hhalf.
      assert (0 <= 2 * c * K.sigmoid (2 * c) + t - y) by (unfold c in *; nra).
      assert (t - y <= 0) by lra. nra.
    + exists z. unfold minus_fct, fct_cte in Hz. lra.
Qed.

(** X4: what is missing to the shifted identity.  For every [x > 0],
    [ftswish x] stays below [x + t] by exactly [x / (1 + e^x)], a gap that is
    at most [1/2] and smaller than [4 / x]. *)
Theorem ftswish_saturation_gap (x : R) :
  0 < x ->
  (x + t) - ftswish x = x / (1 + exp x) /\
  0 < (x + t) - ftswish x <= 1 / 2 /\
  (x + t) - ftswish x < 4 / x.
Proof.
  intro Hx. pose proof (exp_pos x) as He.
  assert (Hgap : (x + t) - ftswish x = x / (1 + exp x)).
  { rewrite ftswish_pos by lra.
    replace (x + t - (x * K.sigmoid x + t)) with (x * (1 - K.sigmoid x)) by ring.
    rewrite one_minus_sigmoid. unfold Rdiv. ring. }
  rewrite Hgap. split; [reflexivity |]. split; [split |].
  - apply Rdiv_lt_0_compat; lra.
  - apply saturation_gap_half. lra.
  - pose proof (exp_ge_square x ltac:(lra)) as Hsq.
    apply Rmult_lt_reg_r with (1 + exp x); [lra |].
    unfold Rdiv at 1. rewrite Rmult_assoc, Rinv_l by lra.
    apply Rmult_lt_reg_r with x; [exact Hx |].
    replace (4 / x * (1 + exp x) * x) with (4 * (1 + exp x)) by (field; lra).
    nra.
Qed.

Lemma ftswish_saturation_gap_witness :
  (50 + t) - ftswish 50 = 50 / (1 + exp 50) /\
  0 < (50 + t) - ftswish 50 <= 1 / 2 /\
  (50 + t) - ftswish 50 < 4 / 50.
Proof. apply (ftswish_saturation_gap 50). lra. Defined.

(** X5: [ftswish] is Lipschitz with constant [3/2]: outputs differ by at most
    one and a half times the distance of the inputs. *)
Theorem ftswish_lipschitz (x y : R) :
  Rabs (ftswish x - ftswish y) <= 3 / 2 * Rabs (x - y).
Proof.
  assert (Hord : forall a b, a <= b ->
            0 <= ftswish b - ftswish a <= 3 / 2 * (b - a)).
  { intros a b Hab.
    destruct (Rle_lt_dec b 0) as [Hb | Hb].
    - rewrite (ftswish_nonpos a), (ftswish_nonpos b) by lra. lra.
    - destruct (Rle_lt_dec a 0) as [Ha | Ha].
      + rewrite (ftswish_nonpos a Ha), ftswish_pos by lra.
        pose proof (swish_increment 0 b ltac:(lra) Hb) as Hi.
        pose proof (sigmoid_pos b). unfold swish in Hi. nra.
      + destruct Hab as [Hlt | ->]; [| lra].
        rewrite !ftswish_pos by lra.
        pose proof (swish_increment a b ltac:(lra) Hlt) as Hi.
        pose proof (swish_strict a b ltac:(lra) Hlt) as Hs.
        unfold swish in Hi, Hs. lra. }
  destruct (Rle_lt_dec x y) as [Hxy | Hxy].
  - specialize (Hord x y Hxy).
    rewrite (Rabs_left1 (ftswish x - ftswish y)) by lra.
    rewrite (Rabs_left1 (x - y)) by lra. lra.
  - specialize (Hord y x ltac:(lra)).
    rewrite (Rabs_pos_eq (ftswish x - ftswish y)) by lra.
    rewrite (Rabs_pos_eq (x - y)) by lra. lra.
Qed.

(** X6: [ftswish] is continuous at every real, and its slope, where it has
    one, lies between [0] and [3/2]. *)
Theorem ftswish_continuous_bounded_slope :
  continuity ftswish /\
  (forall x l : R, derivable_pt_lim ftswish x l -> 0 <= l < 3 / 2).
Proof.
  split; [exact ftswish_continuous |].
  intros x l Hl.
  destruct (Rtotal_order x 0) as [Hx | [-> | Hx]].
  - rewrite (uniqueness_limite ftswish x l 0 Hl (ftswish_deriv_neg x Hx)). lra.
  - exfalso. apply ftswish_not_derivable_0. now exists l.
  - rewrite (uniqueness_limite ftswish x l (dswish x) Hl (ftswish_deriv_pos x Hx)).
    pose proof (dswish_pos x Hx). pose proof (dswish_lt_3_2 x ltac:(lra)). lra.
Qed.

(** X7: at the origin the slope from the left is [0], the slope from the
    right is [1/2], and there is no derivative. *)
Theorem ftswish_origin_slopes :
  left_derivative ftswish 0 0 /\
  right_derivative ftswish 0 (1 / 2) /\
  ~ (exists l : R, derivable_pt_lim ftswish 0 l).
Proof.
  split; [exact ftswish_left_derivative_0 |].
  split; [exact ftswish_right_derivative_0 | exact ftswish_not_derivable_0].
Qed.

(** * Further properties of the layers *)


Lemma row_sum_exp_shift (c : R) (z : list R) :
  row_sum (map exp (map (fun v => v + c) z)) = exp c * row_sum (map exp z).
Proof.
  induction z as [| v z IH]; simpl; [ring |].
  rewrite IH, exp_plus. ring.
Qed.

(** X9: softmax ignores a common shift of the scores: adding the same number
    to every score leaves every output unchanged. *)
Theorem softmax_shift_invariant (c : R) (z : list R) :
  Activations.softmax (map (fun v => v + c) z) = Activations.softmax z.
Proof.
  destruct z as [| w z']; [reflexivity |].
  set (z := w :: z').
  assert (HS : 0 < row_sum (map exp z)) by (apply row_sum_exp_pos; discriminate).
  unfold Activations.softmax. rewrite row_sum_exp_shift, map_map.
  apply map_ext. intro v. rewrite exp_plus.
  pose proof (exp_pos c). field. split; lra.
Qed.

Lemma softmax_nth (z : list R) (i : nat) :
  (i < length z)%nat ->
  nth i (Activations.softmax z) 0 = exp (nth i z 0) / row_sum (map exp z).
Proof.
  intro Hi. unfold Activations.softmax.
  rewrite (nth_indep _ 0 (exp 0 / row_sum (map exp z))) by now rewrite length_map.
  apply (map_nth (fun v => exp v / row_sum (map exp z))).
Qed.

(** X10: softmax keeps the order of the scores: of two classes, one has the
    lower score exactly when it has the lower probability, so the most
    probable class is the one with the highest score. *)
Theorem softmax_order (z : list R) (i j : nat) :
  (i < length z)%nat -> (j < length z)%nat ->
  (nth i z 0 <= nth j z 0 <->
   nth i (Activations.softmax z) 0 <= nth j (Activations.softmax z) 0).
Proof.
  intros Hi Hj. rewrite !softmax_nth by assumption.
  assert (HS : 0 < row_sum (map exp z)).
  { apply row_sum_exp_pos. intros ->. simpl in Hi. lia. }
  assert (Hinv : 0 < / row_sum (map exp z)) by now apply Rinv_0_lt_compat.
  unfold Rdiv. split.
  - intro Hle. apply Rmult_le_compat_r; [lra |].
    destruct Hle as [Hlt | ->]; [left; now apply exp_increasing | right; reflexivity].
  - intro Hle. apply Rmult_le_reg_r in Hle; [| exact Hinv].
    destruct (Rle_lt_dec (nth i z 0) (nth j z 0)) as [H | H]; [exact H |].
    apply exp_increasing in H. lra.
Qed.

Lemma softmax_order_witness :
  nth 0 [1; 2] 0 <= nth 1 [1; 2] 0 <->
  nth 0 (Activations.softmax [1; 2]) 0 <= nth 1 (Activations.softmax [1; 2]) 0.
Proof. apply (softmax_order [1; 2] 0 1); simpl; lia. Defined.

(** * Further properties of the preprocessing *)

Lemma size_of_dims (cf : bool) (n : nat) :
  size_of (if cf then [n; 3; img_width; img_height]%nat
           else [n; img_width; img_height; 3]%nat) = (n * 3072)%nat.
Proof. destruct cf; unfold size_of, img_width, img_height; simpl; lia. Qed.

Lemma preprocess_some (cf : bool) (input : ndarray Z) (out : ndarray R) :
  preprocess cf input = Some out ->
  length (data input) = (hd 0%nat (shape input) * 3072)%nat /\
  shape out = hd 0%nat (shape input) :: input_shape cf /\
  data out = map (fun v => v / 255) (map IZR (data input)).
Proof.
  unfold preprocess, reshape. rewrite size_of_dims.
  destruct (Nat.eqb _ _) eqn:Hsz; [| discriminate].
  intro H. injection H as <-. apply Nat.eqb_eq in Hsz.
  split; [now symmetry |]. split; [now destruct cf | reflexivity].
Qed.

Lemma preprocess_none (cf : bool) (input : ndarray Z) :
  preprocess cf input = None <->
  length (data input) <> (hd 0%nat (shape input) * 3072)%nat.
Proof.
  unfold preprocess, reshape. rewrite size_of_dims.
  destruct (Nat.eqb _ _) eqn:Hsz.
  - apply Nat.eqb_eq in Hsz. split; [discriminate | intro H; now symmetry in Hsz].
  - apply Nat.eqb_neq in Hsz. split; [intros _ H; now symmetry in H | reflexivity].
Qed.

(** X11: preprocessing fails exactly when the array does not hold
    [32 * 32 * 3 = 3072] entries per image, the number of images being the
    first dimension of its shape; the image data format plays no part. *)
Theorem preprocess_fails_iff (channels_first : bool) (input : ndarray Z) :
  (preprocess channels_first input = None <->
   length (data input) <> (hd 0%nat (shape input) * 3072)%nat) /\
  (preprocess true input = None <-> preprocess false input = None).
Proof.
  split; [apply preprocess_none |].
  rewrite !preprocess_none. reflexivity.
Qed.

(** X12: when preprocessing succeeds, the shape of the result is the number
    of images followed by the [input_shape] that the first layer is built
    with, and the result holds that many entries. *)
Theorem preprocess_shape
    (channels_first : bool) (input : ndarray Z) (out : ndarray R) :
  preprocess channels_first input = Some out ->
  shape out = hd 0%nat (shape input) :: input_shape channels_first /\
  length (data out) = size_of (shape out).
Proof.
  intro H. apply preprocess_some in H. destruct H as [Hlen [Hshape Hdata]].
  split; [exact Hshape |].
  rewrite Hshape, Hdata, !length_map, Hlen.
  destruct channels_first; unfold size_of, input_shape, img_width, img_height;
    simpl; lia.
Qed.

Lemma preprocess_shape_witness :
  shape (div_scalar (astype_float32 white_image) 255)
  = hd 0%nat (shape white_image) :: input_shape false /\
  length (data (div_scalar (astype_float32 white_image) 255))
  = size_of (shape (div_scalar (astype_float32 white_image) 255)).
Proof. apply (preprocess_shape false white_image). reflexivity. Defined.

(** X13: the channels-first branch only relabels the axes: under either image
    data format the result holds the same entries in the same order. *)
Theorem preprocess_format_same_data (input : ndarray Z) :
  option_map data (preprocess true input)
  = option_map data (preprocess false input).
Proof.
  destruct (preprocess true input) as [a |] eqn:Ha;
    destruct (preprocess false input) as [b |] eqn:Hb; simpl.
  - apply preprocess_some in Ha, Hb. f_equal.
    destruct Ha as [_ [_ ->]]. destruct Hb as [_ [_ ->]]. reflexivity.
  - apply preprocess_some in Ha. apply preprocess_none in Hb. tauto.
  - apply preprocess_some in Hb. apply preprocess_none in Ha. tauto.
  - reflexivity.
Qed.

Lemma IZR_map_inj (l l' : list Z) : map IZR l = map IZR l' -> l = l'.
Proof.
  revert l'. induction l as [| p l IH]; intros [| q l'] H; simpl in H;
    try discriminate; [reflexivity |].
  injection H as Hp Hl. apply eq_IZR in Hp. f_equal; [exact Hp | now apply IH].
Qed.

(** X14: normalising loses nothing: multiplying every entry of the result by
    255 gives back the raw integers, so two data sets with the same
    preprocessed entries have the same raw entries. *)
Theorem preprocess_round_trip
    (channels_first : bool) (input : ndarray Z) (out : ndarray R) :
  preprocess channels_first input = Some out ->
  map (fun v => v * 255) (data out) = map IZR (data input) /\
  (forall (input' : ndarray Z) (out' : ndarray R),
      preprocess channels_first input' = Some out' ->
      data out' = data out -> data input' = data input).
Proof.
  intro H. apply preprocess_some in H. destruct H as [_ [_ Hdata]].
  assert (Hback : forall l : list R,
            map (fun v => v * 255) (map (fun v => v / 255) l) = l).
  { intro l. rewrite map_map. rewrite <- (map_id l) at 2.
    apply map_ext. intro v. field. }
  split; [rewrite Hdata; apply Hback |].
  intros input' out' H' Heq.
  apply preprocess_some in H'. destruct H' as [_ [_ Hdata']].
  apply IZR_map_inj. rewrite <- (Hback (map IZR input'.(data))), <- Hdata', Heq, Hdata.
  apply Hback.
Qed.

Lemma preprocess_round_trip_witness :
  map (fun v => v * 255) (data (div_scalar (astype_float32 white_image) 255))
  = map IZR (data white_image) /\
  (forall (input' : ndarray Z) (out' : ndarray R),
      preprocess false input' = Some out' ->
      data out' = data (div_scalar (astype_float32 white_image) 255) ->
      data input' = data white_image).
Proof. apply (preprocess_round_trip false white_image). reflexivity. Defined.

(** * Properties of the targets *)

Lemma one_hot_sum_from (label start len : nat) :
  row_sum (map (fun c => if Nat.eqb c label then 1 else 0) (seq start len))
  = if (Nat.leb start label && Nat.ltb label (start + len))%bool then 1 else 0.
Proof.
  revert start. induction len as [| len IH]; intro start; simpl.
  - destruct (Nat.leb start label) eqn:H1; simpl; [| reflexivity].
    destruct (Nat.ltb label (start + 0)) eqn:H2; [| reflexivity].
    apply Nat.leb_le in H1. apply Nat.ltb_lt in H2. lia.
  - rewrite IH.
    destruct (Nat.eqb start label) eqn:He.
    + apply Nat.eqb_eq in He. subst label.
      assert (H1 : Nat.leb (S start) start = false) by (apply Nat.leb_gt; lia).
      assert (H2 : Nat.leb start start = true) by (apply Nat.leb_le; lia).
      assert (H3 : Nat.ltb start (start + S len) = true) by (apply Nat.ltb_lt; lia).
      rewrite H1, H2, H3. simpl. ring.
    + apply Nat.eqb_neq in He.
      replace (Nat.leb (S start) label) with (Nat.leb start label).
      * replace (S start + len)%nat with (start + S len)%nat by lia. ring.
      * destruct (Nat.leb start label) eqn:H1; symmetry.
        -- apply Nat.leb_le in H1. apply Nat.leb_le. lia.
        -- apply Nat.leb_gt in H1. apply Nat.leb_gt. lia.
Qed.

Lemma one_hot_probability_row (n label : nat) :
  (label < n)%nat -> probability_row (one_hot n label).
Proof.
  intro Hl. unfold probability_row, one_hot. split.
  - apply Forall_forall. intros p Hp.
    apply in_map_iff in Hp. destruct Hp as [c [<- _]].
    destruct (Nat.eqb c label); lra.
  - rewrite one_hot_sum_from. simpl.
    assert (H : Nat.ltb label n = true) by now apply Nat.ltb_lt.
    now rewrite H.
Qed.

Lemma one_hot_nth (n label c : nat) :
  (c < n)%nat -> nth c (one_hot n label) 0 = if Nat.eqb c label then 1 else 0.
Proof.
  intro Hc. unfold one_hot.
  rewrite (nth_indep _ 0 ((fun k => if Nat.eqb k label then 1 else 0) 0%nat))
    by now rewrite length_map, length_seq.
  rewrite (map_nth (fun k => if Nat.eqb k label then 1 else 0)).
  now rewrite seq_nth.
Qed.

Lemma one_hot_inj (n l l' : nat) :
  (l < n)%nat -> one_hot n l = one_hot n l' -> l = l'.
Proof.
  intros Hl Heq.
  assert (H : nth l (one_hot n l) 0 = nth l (one_hot n l') 0) by now rewrite Heq.
  rewrite !one_hot_nth in H by exact Hl.
  rewrite Nat.eqb_refl in H.
  destruct (Nat.eqb l l') eqn:He; [now apply Nat.eqb_eq | lra].
Qed.

(** X15: when every label is below [num_classes], [to_categorical] returns
    one row per label, each of [num_classes] entries in [[0, 1]] summing to 1,
    and the labels can be read back: no other vector of labels has the same
    encoding. *)
Theorem to_categorical_rows (y : list nat) (num_classes : nat) :
  Forall (fun label => (label < num_classes)%nat) y ->
  exists rows : list (list R),
    to_categorical y num_classes = Some rows /\
    length rows = length y /\
    Forall (fun row => length row = num_classes /\ probability_row row) rows /\
    (forall y' : list nat, to_categorical y' num_classes = Some rows -> y' = y).
Proof.
  intro Hy.
  assert (Hall : forallb (fun label => Nat.ltb label num_classes) y = true).
  { apply forallb_forall. intros l Hl. apply Nat.ltb_lt.
    rewrite Forall_forall in Hy. now apply Hy. }
  exists (map (one_hot num_classes) y).
  unfold to_categorical. rewrite Hall.
  split; [reflexivity |]. split; [apply length_map |]. split.
  - apply Forall_forall. intros row Hrow.
    apply in_map_iff in Hrow. destruct Hrow as [l [<- Hl]].
    rewrite Forall_forall in Hy. split.
    + unfold one_hot. now rewrite length_map, length_seq.
    + apply one_hot_probability_row. now apply Hy.
  - intros y'. destruct (forallb _ y'); [| discriminate].
    intro H. injection H as H. clear Hall.
    revert y' H. induction Hy as [| l y Hl Hy IH]; intros [| l' y'] H; simpl in H;
      try discriminate; [reflexivity |].
    injection H as H1 H2. f_equal.
    + symmetry. now apply (one_hot_inj num_classes l l').
    + now apply IH.
Qed.

Lemma to_categorical_rows_witness :
  exists rows : list (list R),
    to_categorical [3; 0; 9]%nat no_classes = Some rows /\
    length rows = length [3; 0; 9]%nat /\
    Forall (fun row => length row = no_classes /\ probability_row row) rows /\
    (forall y' : list nat, to_categorical y' no_classes = Some rows -> y' = [3; 0; 9]%nat).
Proof.
  apply (to_categorical_rows [3; 0; 9]%nat no_classes).
  unfold no_classes. repeat constructor.
Defined.
